(** * Verification of the post-detection geometry and aggregation of
      [backend/api.py] (screw detection + classification service).

    Floating-point inputs are modelled as exact rationals [Q]; Python's
    [int(x)] on a finite float is truncation toward zero. *)

From Stdlib Require Import String Ascii ZArith QArith Qround List Lia.
From Stdlib Require Import Permutation Sorted Mergesort Orders.
Import ListNotations.

Open Scope Z_scope.

(** ** Python numeric helpers *)

(** [int(x)] for a finite float [x]: truncation toward zero. *)
Definition py_int (q : Q) : Z := Z.quot (Qnum q) (Zpos (Qden q)).

(** A box [(x1, y1, x2, y2)] of integer pixel coordinates. *)
Definition ZBox : Type := (Z * Z * Z * Z)%type.

(** A detector box [(x1, y1, x2, y2)] of floats. *)
Definition QBox : Type := (Q * Q * Q * Q)%type.

Definition qbox_of_zbox (b : ZBox) : QBox :=
  let '(x1, y1, x2, y2) := b in
  (inject_Z x1, inject_Z y1, inject_Z x2, inject_Z y2).

(** ** [clip_box] (api.py, lines 69-79) *)
Definition clip_box (x1 y1 x2 y2 : Q) (w h : Z) : ZBox :=
  let x1 := Z.max 0 (Z.min (py_int x1) (w - 1)) in
  let y1 := Z.max 0 (Z.min (py_int y1) (h - 1)) in
  let x2 := Z.max 0 (Z.min (py_int x2) (w - 1)) in
  let y2 := Z.max 0 (Z.min (py_int y2) (h - 1)) in
  let x2 := if x2 <=? x1 then Z.min (w - 1) (x1 + 1) else x2 in
  let y2 := if y2 <=? y1 then Z.min (h - 1) (y1 + 1) else y2 in
  (x1, y1, x2, y2).

(** [clip_box] applied to a box given as a tuple. *)
Definition clip (b : QBox) (w h : Z) : ZBox :=
  let '(x1, y1, x2, y2) := b in clip_box x1 y1 x2 y2 w h.


(** Clamping and nudging of one axis, the shape shared by both axes of
    [clip_box]. *)
Definition clip_axis (a b : Q) (n : Z) : Z * Z :=
  let a := Z.max 0 (Z.min (py_int a) (n - 1)) in
  let b := Z.max 0 (Z.min (py_int b) (n - 1)) in
  (a, if b <=? a then Z.min (n - 1) (a + 1) else b).

(** ** Images and crops *)

(** An RGB uint8 pixel. *)
Definition Pixel : Type := (Z * Z * Z)%type.

(** [np.array(img)]: [h] rows of [w] pixels, row-major. *)
Definition NpImage : Type := list (list Pixel).

(** [h, w = np_img.shape[:2]] *)
Definition np_h (img : NpImage) : Z := Z.of_nat (length img).
Definition np_w (img : NpImage) : Z := Z.of_nat (length (hd [] img)).

(** Python slice [l[a:b]] for non-negative bounds (the only ones produced
    by [clip_box] on an image with [w, h >= 1]). *)
Definition py_slice {A : Type} (a b : Z) (l : list A) : list A :=
  skipn (Z.to_nat a) (firstn (Z.to_nat b) l).

(** [np_img[y1:y2, x1:x2, :]] *)
Definition np_crop (img : NpImage) (b : ZBox) : NpImage :=
  let '(x1, y1, x2, y2) := b in map (py_slice x1 x2) (py_slice y1 y2 img).

(** [crop_rgb] (api.py, lines 81-85) *)
Definition crop_rgb (img : NpImage) (box : QBox) : NpImage :=
  np_crop img (clip box (np_w img) (np_h img)).

(** ** [head_square_crop] (api.py, lines 87-111) *)

(** The box [head_square_crop] slices before the final re-clip: either the
    clipped detector box ([side < 2], fallback through [crop_rgb]) or the
    square [(nx1, ny1, nx2, ny2)] of lines 105-108. *)
Inductive HeadPlan : Type :=
| Fallback (b : ZBox)
| Square (b : ZBox).

Definition head_square_plan (w h : Z) (box : QBox) : HeadPlan :=
  let '(x1, y1, x2, y2) := clip box w h in
  let bw := x2 - x1 in
  let bh := y2 - y1 in
  (* side = int(max(bw, bh)); int of an int is itself *)
  let side := Z.max bw bh in
  if side <? 2 then Fallback (x1, y1, x2, y2)
  else
    let cx := py_int (inject_Z (x1 + x2) / 2) in
    let cy := py_int (inject_Z y1 + inject_Z bh * (45 # 100)) in
    let pad := py_int (inject_Z side * (5 # 100)) in
    let side2 := side + 2 * pad in
    let nx1 := cx - side2 in
    let ny1 := cy - side2 in
    let nx2 := nx1 + side2 in
    let ny2 := ny1 + side2 in
    Square (nx1, ny1, nx2, ny2).

(** The final box whose pixels are returned. *)
Definition head_square_box (w h : Z) (box : QBox) : ZBox :=
  match head_square_plan w h box with
  | Fallback b => clip (qbox_of_zbox b) w h
  | Square b => clip (qbox_of_zbox b) w h
  end.

Definition head_square_crop (img : NpImage) (box : QBox) : NpImage :=
  let h := np_h img in
  let w := np_w img in
  match head_square_plan w h box with
  | Fallback b => crop_rgb img (qbox_of_zbox b)
  | Square b => np_crop img (clip (qbox_of_zbox b) w h)
  end.

(** ** [classify_crop] aggregation (api.py, lines 147-161) *)

(** One [{"label", "confidence"}] entry of [topk]. *)
Record TopEntry : Type := mkTop { te_label : string; te_conf : Q }.

(** The dictionary returned by [classify_crop]. *)
Record ClsOut : Type := mkCls {
  c_label : option string;
  c_confidence : option Q;
  c_topk : list TopEntry }.

(** The part of the classifier's result [res] that is read: [res.probs]
    ([None] when absent) and [res.names]. *)
Record ClsRes : Type := mkRes { r_probs : option (list Q); r_names : nat -> string }.

Definition null_cls : ClsOut := mkCls None None [].

Section Aggregate.

(** [np.argsort] (default kind) on a float vector: the indices that sort
    it ascending. *)
Variable argsort : list Q -> list nat.

(** [idxs = np.argsort(-p)[:topk]] *)
Definition top_idxs (p : list Q) (topk : nat) : list nat :=
  firstn topk (argsort (map Qopp p)).

Definition top_entry (names : nat -> string) (p : list Q) (i : nat) : TopEntry :=
  mkTop (names i) (nth i p 0%Q).

Definition aggregate (res : ClsRes) (topk : nat) : ClsOut :=
  match r_probs res with
  | None => null_cls
  | Some p =>
      let top_list := map (top_entry (r_names res) p) (top_idxs p topk) in
      match top_list with
      | [] => mkCls None None top_list
      | best :: _ => mkCls (Some (te_label best)) (Some (te_conf best)) top_list
      end
  end.

End Aggregate.

(** The documented contract of [np.argsort]: a permutation of the indices
    [0 .. n-1] along which the values are non-decreasing. *)
Definition argsort_spec (f : list Q -> list nat) : Prop :=
  forall v : list Q,
    Permutation (f v) (seq 0 (length v)) /\
    Sorted (fun i j => nth i v 0%Q <= nth j v 0%Q)%Q (f v).

(** ** numpy's scalar [aquicksort_] / [aheapsort_] (npysort/quicksort.cpp,
    npysort/heapsort.cpp), the default [np.argsort] for float64 on
    machines without the x86 SIMD dispatch (e.g. Apple silicon, the [mps]
    device of [DEVICE]). The index array [tosort] is a [list nat]; C
    pointers are positions in it. *)
Module NumpyArgsort.

Local Open Scope nat_scope.

Definition Qltb (a b : Q) : bool := negb (Qle_bool b a).

Section WithValues.

Variable v : list Q.

Definition key (i : nat) : Q := nth i v 0%Q.

Definition get (a : list nat) (i : nat) : nat := nth i a O.

Definition set (a : list nat) (i x : nat) : list nat :=
  firstn i a ++ x :: skipn (S i) a.

(** [INTP_SWAP] of two positions *)
Definition swap (a : list nat) (i j : nat) : list nat :=
  let ai := get a i in let aj := get a j in set (set a i aj) j ai.

Definition less_at (a : list nat) (i j : nat) : bool :=
  Qltb (key (get a i)) (key (get a j)).

(** [do { ++pi; } while (less(v[*pi], vp));] *)
Fixpoint scan_up (fuel : nat) (a : list nat) (vp : Q) (pi : nat) : nat :=
  match fuel with
  | O => pi
  | S f => let pi := S pi in
           if Qltb (key (get a pi)) vp then scan_up f a vp pi else pi
  end.

(** [do { --pj; } while (less(vp, v[*pj]));] *)
Fixpoint scan_down (fuel : nat) (a : list nat) (vp : Q) (pj : nat) : nat :=
  match fuel with
  | O => pj
  | S f => let pj := pj - 1 in
           if Qltb vp (key (get a pj)) then scan_down f a vp pj else pj
  end.

(** The [for (;;)] partition loop; returns the array and [pi]. *)
Fixpoint partition_loop (fuel : nat) (a : list nat) (vp : Q) (pi pj : nat)
  : list nat * nat :=
  match fuel with
  | O => (a, pi)
  | S f =>
      let pi := scan_up (length a) a vp pi in
      let pj := scan_down (length a) a vp pj in
      if pj <=? pi then (a, pi) else partition_loop f (swap a pi pj) vp pi pj
  end%nat.

(** One quicksort partition of [pl..pr] (median of three, sentinels). *)
Definition partition (a : list nat) (pl pr : nat) : list nat * nat :=
  let pm := (pl + (pr - pl) / 2)%nat in
  let a := if less_at a pm pl then swap a pm pl else a in
  let a := if less_at a pr pm then swap a pr pm else a in
  let a := if less_at a pm pl then swap a pm pl else a in
  let vp := key (get a pm) in
  let pj := (pr - 1)%nat in
  let a := swap a pm pj in
  let '(a, pi) := partition_loop (length a) a vp pl pj in
  (swap a pi (pr - 1), pi).

(** [while (pj > pl && less(vp, v[*pk])) { *pj-- = *pk--; }] *)
Fixpoint ins_shift (fuel : nat) (a : list nat) (vp : Q) (pl pj : nat)
  : list nat * nat :=
  match fuel with
  | O => (a, pj)
  | S f =>
      if (pl <? pj) && Qltb vp (key (get a (pj - 1))) then
        ins_shift f (set a pj (get a (pj - 1))) vp pl (pj - 1)
      else (a, pj)
  end%nat.

(** [for (pi = pl + 1; pi <= pr; ++pi) { ... }] *)
Fixpoint insertion_from (fuel : nat) (a : list nat) (pl pi pr : nat) : list nat :=
  match fuel with
  | O => a
  | S f =>
      if pr <? pi then a
      else
        let vi := get a pi in
        let '(a, pj) := ins_shift (length a) a (key vi) pl pi in
        insertion_from f (set a pj vi) pl (S pi) pr
  end%nat.

Definition insertion_sort (a : list nat) (pl pr : nat) : list nat :=
  insertion_from (length a) a pl (S pl) pr.

(** [aheapsort_]: the heap is [tosort[pl..pl+n-1]], indexed from 1. *)
Definition hget (a : list nat) (pl i : nat) : nat := get a (pl + i - 1).
Definition hset (a : list nat) (pl i x : nat) : list nat := set a (pl + i - 1) x.

(** The sift-down loop [for (i = .., j = ..; j <= n;)]; returns the array
    and the final [i]. *)
Fixpoint sift (fuel : nat) (a : list nat) (pl n tmp i j : nat) : list nat * nat :=
  match fuel with
  | O => (a, i)
  | S f =>
      if n <? j then (a, i)
      else
        let j := if (j <? n) && Qltb (key (hget a pl j)) (key (hget a pl (j + 1)))
                 then (j + 1) else j in
        if Qltb (key tmp) (key (hget a pl j)) then
          sift f (hset a pl i (hget a pl j)) pl n tmp j (j + j)
        else (a, i)
  end%nat.

(** [for (l = n >> 1; l > 0; --l) { ... }] *)
Fixpoint heapify (fuel : nat) (a : list nat) (pl n l : nat) : list nat :=
  match fuel, l with
  | O, _ | _, O => a
  | S f, S l' =>
      let tmp := hget a pl l in
      let '(a, i) := sift (S n) a pl n tmp l (2 * l) in
      heapify f (hset a pl i tmp) pl n l'
  end%nat.

(** [for (; n > 1;) { ... }] *)
Fixpoint extract (fuel : nat) (a : list nat) (pl n : nat) : list nat :=
  match fuel with
  | O => a
  | S f =>
      if n <=? 1 then a
      else
        let tmp := hget a pl n in
        let a := hset a pl n (hget a pl 1) in
        let n := (n - 1)%nat in
        let '(a, i) := sift (S n) a pl n tmp 1 2 in
        extract f (hset a pl i tmp) pl n
  end%nat.

Definition aheapsort (a : list nat) (pl n : nat) : list nat :=
  extract (S n) (heapify (S n) a pl n (n / 2)) pl n.

(** [SMALL_QUICKSORT] *)
Definition SMALL_QUICKSORT : nat := 16.

(** The stack of pending segments [(pl, pr, depth)]. *)
Definition Stack : Type := list (nat * nat * Z).

(** [while ((pr - pl) > SMALL_QUICKSORT) { partition; push larger }] *)
Fixpoint partition_phase (fuel : nat) (a : list nat) (pl pr : nat) (st : Stack)
  (cdepth : Z) : list nat * nat * nat * Stack :=
  match fuel with
  | O => (a, pl, pr, st)
  | S f =>
      if (SMALL_QUICKSORT <? pr - pl)%nat then
        let '(a, pi) := partition a pl pr in
        let cdepth := (cdepth - 1)%Z in
        if (pi - pl <? pr - pi)%nat then
          partition_phase f a pl (pi - 1) ((S pi, pr, cdepth) :: st) cdepth
        else
          partition_phase f a (S pi) pr ((pl, pi - 1, cdepth) :: st) cdepth
      else (a, pl, pr, st)
  end.

(** The outer [for (;;)] loop with its [stack_pop]. *)
Fixpoint outer (fuel : nat) (a : list nat) (pl pr : nat) (st : Stack) (cdepth : Z)
  : list nat :=
  match fuel with
  | O => a
  | S f =>
      let '(a, st) :=
        if (cdepth <? 0)%Z then (aheapsort a pl (pr - pl + 1), st)
        else
          let '(a, pl, pr, st) := partition_phase (length a) a pl pr st cdepth in
          (insertion_sort a pl pr, st) in
      match st with
      | [] => a
      | (pl, pr, cd) :: st => outer f a pl pr st cd
      end
  end.

(** [npy_get_msb] *)
Definition npy_get_msb (n : nat) : Z := Z.log2 (Z.of_nat n).

(** [aquicksort_] on [tosort = 0 .. num-1]. *)
Definition aquicksort : list nat :=
  let num := length v in
  outer (2 * num + 2) (seq 0 num) 0 (num - 1) [] (npy_get_msb num * 2)%Z.

End WithValues.

(** [np.argsort(v)] *)
Definition argsort (v : list Q) : list nat := aquicksort v.

End NumpyArgsort.

(** A stable reference argsort (mergesort on [(value, index)] pairs),
    a concrete instance of the [argsort_spec] contract. *)
Module KeyIdxLe <: TotalLeBool.
Definition t : Type := (Q * nat)%type.
Definition leb (a b : t) : bool := Qle_bool (fst a) (fst b).
Lemma leb_total : forall a b : t, leb a b = true \/ leb b a = true.
Proof.
  intros [x i] [y j]; unfold leb; simpl.
  rewrite !Qle_bool_iff. destruct (Qlt_le_dec x y); [left|right]; auto.
  apply Qlt_le_weak; assumption.
Qed.
End KeyIdxLe.

Module KeyIdxSort := Sort KeyIdxLe.

Definition stable_argsort (v : list Q) : list nat :=
  map snd (KeyIdxSort.sort (combine v (seq 0 (length v)))).

(** ** The [/predict] endpoint (api.py, lines 167-257) *)

(** One row of [det_res.boxes]: [xyxy], [conf] and [cls] (possibly [None]). *)
Record DetBox : Type := mkDetBox { b_xyxy : QBox; b_conf : Q; b_cls : option Q }.

(** The ["det"] dictionary of one output entry. *)
Record DetOut : Type := mkDetOut { d_label : string; d_confidence : Q; d_bbox : list Q }.

(** One entry [{"det": .., "cls": ..}] of ["detections"]. *)
Record Entry : Type := mkEntry { e_det : DetOut; e_cls : ClsOut }.

(** The response: the 500 ["Models not loaded"] answer or the success
    dictionary with ["image_size"] and ["detections"] (the filename and the
    wall-clock timing are not modelled). *)
Inductive Response : Type :=
| ModelsNotLoaded
| Success (w h : Z) (detections : list Entry).

(** Python [str] of an integer. *)
Fixpoint digits (fuel : nat) (n : Z) (acc : string) : string :=
  match fuel with
  | O => acc
  | S f =>
      let acc := String (ascii_of_nat (48 + Z.to_nat (n mod 10))) acc in
      if n <? 10 then acc else digits f (n / 10) acc
  end.

Definition py_str_Z (z : Z) : string :=
  let fuel := S (Z.to_nat (Z.log2 (Z.abs z))) in
  if z <? 0 then String "-" (digits fuel (- z) EmptyString)
  else digits fuel z EmptyString.

(** The effects of a request: the classifier calls made so far are logged
    (each call records the crop it was given); [None] is a raised
    exception, which aborts the request. *)
Definition M (A : Type) : Type := list NpImage -> option (A * list NpImage).

Definition ret {A : Type} (a : A) : M A := fun log => Some (a, log).

Definition bind {A B : Type} (m : M A) (k : A -> M B) : M B :=
  fun log => match m log with
             | Some (a, log') => k a log'
             | None => None
             end.

Notation "x <- m ;; k" := (bind m (fun x => k))
  (at level 61, m at next level, right associativity).

Section Pipeline.

(** [np.argsort] *)
Variable argsort : list Q -> list nat.

(** The [cv2] module: [None] when the import failed; otherwise the
    RGB->LAB, CLAHE(2.0, 8x8) on L, LAB->RGB pipeline of lines 117-127,
    which returns [None] when OpenCV raises. *)
Variable cv2_clahe : option (NpImage -> option NpImage).

(** [cls_model.predict(source=crop, imgsz=imgsz, ...)[0]]; [None] when the
    call raises. *)
Variable cls_model : NpImage -> Z -> option ClsRes.

(** [det_model.predict(source=<the saved image>, conf, iou, max_det)[0]
    .boxes]: [None] when [boxes is None]. *)
Variable det_model : NpImage -> Q -> Q -> Z -> option (list DetBox).

(** [det_res.names] as a dictionary lookup. *)
Variable det_names : Z -> option string.

(** [enhance_for_cls] (lines 113-129) as a value. *)
Definition enhance_opt (crop : NpImage) : option NpImage :=
  match cv2_clahe with
  | None => Some crop
  | Some clahe => clahe crop
  end.

Definition enhance_for_cls (crop : NpImage) : M NpImage :=
  fun log => match enhance_opt crop with
             | Some c => Some (c, log)
             | None => None
             end.

(** The call [cls_model.predict(...)] of [classify_crop]. *)
Definition call_cls_model (crop : NpImage) (imgsz : Z) : M ClsRes :=
  fun log => match cls_model crop imgsz with
             | Some r => Some (r, log ++ [crop])
             | None => None
             end.

(** [classify_crop] (lines 131-161) *)
Definition classify_crop (crop : NpImage) (imgsz : Z) (topk : nat) : M ClsOut :=
  res <- call_cls_model crop imgsz ;;
  ret (aggregate argsort res topk).

(** [det_label = names.get(cls_id, str(cls_id))] *)
Definition det_label (b : DetBox) : string :=
  let cls_id := match b_cls b with Some c => py_int c | None => 0 end in
  match det_names cls_id with
  | Some s => s
  | None => py_str_Z cls_id
  end.

Definition det_out (b : DetBox) : DetOut :=
  let '(x1, y1, x2, y2) := b_xyxy b in
  mkDetOut (det_label b) (b_conf b) [x1; y1; x2; y2].

(** The loop [for j in range(len(boxes))] of lines 228-250, appending to
    [out]. *)
Fixpoint detection_loop (np_img : NpImage) (cls_imgsz : Z) (cls_topk : nat)
  (out : list Entry) (boxes : list DetBox) : M (list Entry) :=
  match boxes with
  | [] => ret out
  | b :: rest =>
      let crop := head_square_crop np_img (b_xyxy b) in
      crop <- enhance_for_cls crop ;;
      cls_out <- classify_crop crop cls_imgsz cls_topk ;;
      detection_loop np_img cls_imgsz cls_topk
        (out ++ [mkEntry (det_out b) cls_out]) rest
  end.

(** [predict], from the decoded image on; [loaded] is
    [det_model is not None and cls_model is not None]. *)
Definition predict (loaded : bool) (np_img : NpImage) (det_conf det_iou : Q)
  (cls_imgsz : Z) (cls_topk : nat) (max_dets : Z) : M Response :=
  if negb loaded then ret ModelsNotLoaded
  else
    let w := np_w np_img in
    let h := np_h np_img in
    match det_model np_img det_conf det_iou max_dets with
    | None | Some [] => ret (Success w h [])
    | Some boxes =>
        out <- detection_loop np_img cls_imgsz cls_topk [] boxes ;;
        ret (Success w h out)
    end.

(** The work done for one detection, as a value: the entry appended and
    the crop handed to the classifier. *)
Definition process_one (np_img : NpImage) (cls_imgsz : Z) (cls_topk : nat)
  (b : DetBox) : option (Entry * NpImage) :=
  match enhance_opt (head_square_crop np_img (b_xyxy b)) with
  | None => None
  | Some c =>
      match cls_model c cls_imgsz with
      | None => None
      | Some r => Some (mkEntry (det_out b) (aggregate argsort r cls_topk), c)
      end
  end.

Fixpoint process_all (np_img : NpImage) (cls_imgsz : Z) (cls_topk : nat)
  (boxes : list DetBox) : option (list (Entry * NpImage)) :=
  match boxes with
  | [] => Some []
  | b :: rest =>
      match process_one np_img cls_imgsz cls_topk b with
      | None => None
      | Some ec =>
          match process_all np_img cls_imgsz cls_topk rest with
          | None => None
          | Some ecs => Some (ec :: ecs)
          end
      end
  end.

End Pipeline.

(** ** Example inputs *)

(** A probability vector over four classes. *)
Definition probs_example : list Q := [(1 # 10); (6 # 10); (1 # 10); (2 # 10)]%Q.

(** Class names ["0"], ["1"], ... *)
Definition names_example (i : nat) : string := py_str_Z (Z.of_nat i).

(** Eighteen classes of equal probability. *)
Definition uniform18 : list Q := repeat (1 # 18)%Q 18.

(** A black 20x20 image. *)
Definition img_ex : NpImage := repeat (repeat (0, 0, 0) 20%nat) 20%nat.

(** Two detector boxes: a small one in the corner and a large one. *)
Definition box_small : DetBox := mkDetBox (0, 0, 5, 5)%Q (9 # 10)%Q (Some 0%Q).
Definition box_large : DetBox := mkDetBox (2, 2, 18, 18)%Q (8 # 10)%Q None.
Definition boxes_ex : list DetBox := [box_small; box_large].

(** A classifier that gives no probabilities for crops of at most two
    rows. *)
Definition cls_model_ex (c : NpImage) (imgsz : Z) : option ClsRes :=
  Some (mkRes (if (length c <=? 2)%nat then None else Some probs_example) names_example).

(** A detector returning fixed boxes. *)
Definition det_model_ex (boxes : list DetBox) : NpImage -> Q -> Q -> Z -> option (list DetBox) :=
  fun _ _ _ _ => Some boxes.

Definition det_names_ex (z : Z) : option string :=
  if z =? 0 then Some "screw"%string else None.
(** An image as [np.array] gives it: [h] rows of [w] pixels each. *)
Definition rect_image (img : NpImage) (w h : nat) : Prop :=
  length img = h /\ Forall (fun row => length row = w) img.

(** ** Lemmas on the helpers *)

Lemma py_int_inject_Z (z : Z) : py_int (inject_Z z) = z.
Proof. unfold py_int, inject_Z; simpl. apply Z.quot_1_r. Qed.


Lemma clip_axes (x1 y1 x2 y2 : Q) (w h : Z) :
  clip_box x1 y1 x2 y2 w h =
  (fst (clip_axis x1 x2 w), fst (clip_axis y1 y2 h),
   snd (clip_axis x1 x2 w), snd (clip_axis y1 y2 h)).
Proof. reflexivity. Qed.

Lemma clip_axis_bounds (a b : Q) (n : Z) :
  1 <= n ->
  0 <= fst (clip_axis a b n) /\ fst (clip_axis a b n) <= snd (clip_axis a b n) /\
  snd (clip_axis a b n) <= n - 1.
Proof.
  intros Hn; unfold clip_axis; simpl.
  destruct (Z.leb_spec (Z.max 0 (Z.min (py_int b) (n - 1)))
                       (Z.max 0 (Z.min (py_int a) (n - 1)))); lia.
Qed.

Lemma clip_axis_idem (a b : Q) (n : Z) :
  1 <= n ->
  clip_axis (inject_Z (fst (clip_axis a b n))) (inject_Z (snd (clip_axis a b n))) n
  = clip_axis a b n.
Proof.
  intros Hn. pose proof (clip_axis_bounds a b n Hn) as HB.
  destruct (clip_axis a b n) as [u v] eqn:E; simpl in *.
  unfold clip_axis. rewrite !py_int_inject_Z.
  replace (Z.max 0 (Z.min u (n - 1))) with u by lia.
  replace (Z.max 0 (Z.min v (n - 1))) with v by lia.
  f_equal. destruct (Z.leb_spec v u); [|reflexivity].
  unfold clip_axis in E. injection E as Eu Ev.
  destruct (Z.leb_spec (Z.max 0 (Z.min (py_int b) (n - 1)))
                       (Z.max 0 (Z.min (py_int a) (n - 1)))); lia.
Qed.

Lemma py_int_floor (q : Q) : (0 <= q)%Q -> py_int q = Qfloor q.
Proof.
  destruct q as [n d]; unfold py_int, Qfloor, Qle; simpl; intros H.
  rewrite Z.mul_1_r in H. apply Z.quot_div_nonneg; lia.
Qed.

Lemma clip_bounds (b : QBox) (w h : Z) :
  1 <= w -> 1 <= h ->
  let '(x1, y1, x2, y2) := clip b w h in
  0 <= x1 /\ x1 <= x2 /\ x2 <= w - 1 /\ 0 <= y1 /\ y1 <= y2 /\ y2 <= h - 1.
Proof.
  intros Hw Hh. destruct b as [[[x1 y1] x2] y2]; unfold clip.
  rewrite clip_axes.
  pose proof (clip_axis_bounds x1 x2 w Hw).
  pose proof (clip_axis_bounds y1 y2 h Hh). tauto.
Qed.

Lemma clip_box_idempotent_helper (b : QBox) (w h : Z) :
  1 <= w -> 1 <= h ->
  clip (qbox_of_zbox (clip b w h)) w h = clip b w h.
Proof.
  intros Hw Hh. destruct b as [[[x1 y1] x2] y2]; unfold clip.
  rewrite clip_axes. unfold qbox_of_zbox. rewrite clip_axes.
  rewrite (clip_axis_idem x1 x2 w Hw), (clip_axis_idem y1 y2 h Hh).
  reflexivity.
Qed.

(** ** Claims on [clip_box] *)

(** C1 (code_bug): the strict guarantee [x1 < x2] fails on a box lying
    to the right of a 100x100 image: [x1] is clamped to [w-1 = 99] and the
    nudge [x2 = min(w-1, x1+1)] saturates at 99, giving a zero-width box
    (and an empty [np_img[y1:y2, x1:x2]] slice). *)
Theorem clip_box_right_edge_zero_width :
  clip ((150 # 1), (10 # 1), (160 # 1), (20 # 1))%Q 100 100 = (99, 10, 99, 20)
  /\ np_crop (repeat (repeat (0, 0, 0) 100) 100) (99, 10, 99, 20)
     = repeat [] 10.
Proof. split; vm_compute; reflexivity. Qed.

(** C4: [clip_box] is idempotent on images with [w, h >= 1]:
    [clip(clip(box, w, h), w, h) = clip(box, w, h)]. *)
Theorem clip_box_idempotent (b : QBox) (w h : Z) :
  1 <= w -> 1 <= h ->
  clip (qbox_of_zbox (clip b w h)) w h = clip b w h.
Proof.
  intros Hw Hh. destruct b as [[[x1 y1] x2] y2]; unfold clip.
  rewrite clip_axes. unfold qbox_of_zbox. rewrite clip_axes.
  rewrite (clip_axis_idem x1 x2 w Hw), (clip_axis_idem y1 y2 h Hh).
  reflexivity.
Qed.

Lemma clip_box_idempotent_witness :
  clip (qbox_of_zbox (clip ((150 # 1), (-3 # 2), (160 # 1), (7 # 2))%Q 100 100)) 100 100
  = clip ((150 # 1), (-3 # 2), (160 # 1), (7 # 2))%Q 100 100.
Proof. apply clip_box_idempotent; lia. Defined.

(** C9: when the clamped [x2 <= x1], [clip_box] sets
    [x2 = min(w-1, x1+1)], and symmetrically for [y], each axis on its own
    whatever the other does; the detector box
    [(50, 50, 50, 60)] on a 200x200 image is clipped to [(50, 50, 51, 60)]. *)
Theorem clip_box_nudge (x1 y1 x2 y2 : Q) (w h : Z) :
  let cx1 := Z.max 0 (Z.min (py_int x1) (w - 1)) in
  let cy1 := Z.max 0 (Z.min (py_int y1) (h - 1)) in
  let cx2 := Z.max 0 (Z.min (py_int x2) (w - 1)) in
  let cy2 := Z.max 0 (Z.min (py_int y2) (h - 1)) in
  let '(ox1, oy1, ox2, oy2) := clip_box x1 y1 x2 y2 w h in
  ox1 = cx1 /\ oy1 = cy1
  /\ (cx2 <= cx1 -> ox2 = Z.min (w - 1) (cx1 + 1))
  /\ (cy2 <= cy1 -> oy2 = Z.min (h - 1) (cy1 + 1))
  /\ clip ((50 # 1), (50 # 1), (50 # 1), (60 # 1))%Q 200 200 = (50, 50, 51, 60).
Proof.
  intros cx1 cy1 cx2 cy2. unfold clip_box. fold cx1 cy1 cx2 cy2.
  split; [reflexivity|]. split; [reflexivity|].
  split; [|split; [|vm_compute; reflexivity]].
  - intros Hx. apply Z.leb_le in Hx. rewrite Hx. reflexivity.
  - intros Hy. apply Z.leb_le in Hy. rewrite Hy. reflexivity.
Qed.

Lemma clip_box_nudge_witness :
  let '(ox1, oy1, ox2, oy2) := clip_box (50 # 1) (50 # 1) (50 # 1) (60 # 1) 200 200 in
  ox1 = 50 /\ oy1 = 50
  /\ (50 <= 50 -> ox2 = Z.min 199 51)
  /\ (60 <= 50 -> oy2 = Z.min 199 51)
  /\ clip ((50 # 1), (50 # 1), (50 # 1), (60 # 1))%Q 200 200 = (50, 50, 51, 60).
Proof. exact (clip_box_nudge (50 # 1) (50 # 1) (50 # 1) (60 # 1) 200 200). Defined.

(** C10: on an image with [w, h >= 1], the output of [clip_box] always
    satisfies [0 <= x1 <= x2 <= w-1] and [0 <= y1 <= y2 <= h-1]. *)
Theorem clip_box_weak_bounds (x1 y1 x2 y2 : Q) (w h : Z) :
  1 <= w -> 1 <= h ->
  let '(ox1, oy1, ox2, oy2) := clip_box x1 y1 x2 y2 w h in
  0 <= ox1 /\ ox1 <= ox2 /\ ox2 <= w - 1 /\ 0 <= oy1 /\ oy1 <= oy2 /\ oy2 <= h - 1.
Proof. intros Hw Hh. exact (clip_bounds (x1, y1, x2, y2) w h Hw Hh). Qed.

Lemma clip_box_weak_bounds_witness :
  0 <= 99 /\ 99 <= 99 /\ 99 <= 100 - 1 /\ 0 <= 10 /\ 10 <= 20 /\ 20 <= 100 - 1.
Proof.
  exact (clip_box_weak_bounds (150 # 1) (10 # 1) (160 # 1) (20 # 1) 100 100
           ltac:(lia) ltac:(lia)).
Defined.

(** ** Claim on [head_square_crop] *)

(** C5: for a clipped box with [side = max(bw, bh) >= 2], the square
    built before the final re-clip has top-left corner
    [(cx - side2, cy - side2)] and bottom-right corner
    [(cx - side2 + side2, cy - side2 + side2) = (cx, cy)], where
    [cx = floor((x1+x2)/2)], [cy = floor(y1 + 0.45*bh)],
    [pad = floor(side*0.05)] and [side2 = side + 2*pad]. *)
Theorem head_square_plan_anchor (w h : Z) (box : QBox) (x1 y1 x2 y2 : Z) :
  1 <= w -> 1 <= h ->
  clip box w h = (x1, y1, x2, y2) ->
  let bw := x2 - x1 in
  let bh := y2 - y1 in
  let side := Z.max bw bh in
  2 <= side ->
  let cx := Qfloor (inject_Z (x1 + x2) / 2) in
  let cy := Qfloor (inject_Z y1 + (45 # 100) * inject_Z bh) in
  let pad := Qfloor (inject_Z side * (5 # 100)) in
  let side2 := side + 2 * pad in
  head_square_plan w h box
  = Square (cx - side2, cy - side2, cx - side2 + side2, cy - side2 + side2)
  /\ cx - side2 + side2 = cx /\ cy - side2 + side2 = cy.
Proof.
  intros Hw Hh Hc bw bh side Hs cx cy pad side2.
  pose proof (clip_bounds box w h Hw Hh) as HB. rewrite Hc in HB.
  split; [|split; lia].
  unfold head_square_plan. rewrite Hc.
  subst side2 pad cy cx side bh bw. cbv zeta.
  destruct (Z.ltb_spec (Z.max (x2 - x1) (y2 - y1)) 2) as [Hlt|_]; [lia|].
  rewrite (Qmult_comm (45 # 100)).
  rewrite !py_int_floor by (unfold Qle; simpl; lia).
  reflexivity.
Qed.

Lemma head_square_plan_anchor_witness :
  head_square_plan 200 200 ((40 # 1), (20 # 1), (60 # 1), (80 # 1))%Q
  = Square (50 - 66, 47 - 66, 50 - 66 + 66, 47 - 66 + 66)
  /\ 50 - 66 + 66 = 50 /\ 47 - 66 + 66 = 47.
Proof.
  exact (head_square_plan_anchor 200 200 ((40 # 1), (20 # 1), (60 # 1), (80 # 1))%Q
           40 20 60 80 ltac:(lia) ltac:(lia) ltac:(vm_compute; reflexivity)
           ltac:(vm_compute; discriminate)).
Defined.

(** ** Lemmas on lists and sorting *)

Lemma Sorted_mono {A : Type} (R R' : A -> A -> Prop) (l : list A) :
  (forall x y, In x l -> In y l -> R x y -> R' x y) -> Sorted R l -> Sorted R' l.
Proof.
  intros HR HS. induction HS as [|a l HS IH Hd]; constructor.
  - apply IH. intros x y Hx Hy. apply HR; simpl; auto.
  - destruct Hd as [|b l' Hab]; constructor. apply HR; simpl; auto.
Qed.

Lemma Sorted_map_rel {A B : Type} (R : A -> A -> Prop) (R' : B -> B -> Prop)
  (f : A -> B) (l : list A) :
  (forall x y, In x l -> In y l -> R x y -> R' (f x) (f y)) ->
  Sorted R l -> Sorted R' (map f l).
Proof.
  intros HR HS. induction HS as [|a l HS IH Hd]; simpl; constructor.
  - apply IH. intros x y Hx Hy. apply HR; simpl; auto.
  - destruct Hd as [|b l' Hab]; simpl; constructor. apply HR; simpl; auto.
Qed.

Lemma Sorted_firstn {A : Type} (R : A -> A -> Prop) (n : nat) (l : list A) :
  Sorted R l -> Sorted R (firstn n l).
Proof.
  revert l; induction n as [|n IH]; intros l HS; [constructor|].
  destruct HS as [|a l HS Hd]; simpl; [constructor|].
  constructor; [apply IH; assumption|].
  destruct n; simpl; [constructor|].
  destruct Hd; constructor; assumption.
Qed.

Lemma StronglySorted_app_rel {A : Type} (R : A -> A -> Prop) (l1 l2 : list A) (x y : A) :
  StronglySorted R (l1 ++ l2) -> In x l1 -> In y l2 -> R x y.
Proof.
  induction l1 as [|a l1 IH]; simpl; intros HS Hx Hy; [contradiction|].
  apply StronglySorted_inv in HS as [HS HF].
  destruct Hx as [<-|Hx].
  - rewrite Forall_forall in HF. apply HF, in_or_app; auto.
  - apply IH; assumption.
Qed.

Lemma nth_map_Qopp (p : list Q) (i : nat) :
  nth i (map Qopp p) 0%Q = (- nth i p 0%Q)%Q.
Proof.
  revert i; induction p as [|x p IH]; intros [|i]; simpl; auto.
Qed.

(** The argsort order on [-p] is the non-increasing order on [p]. *)
Lemma argsort_neg_sorted (argsort : list Q -> list nat) (p : list Q) :
  argsort_spec argsort ->
  Sorted (fun i j => nth j p 0%Q <= nth i p 0%Q)%Q (argsort (map Qopp p)).
Proof.
  intros Hspec. destruct (Hspec (map Qopp p)) as [_ HS].
  revert HS. apply Sorted_mono. intros i j _ _ H.
  rewrite !nth_map_Qopp in H.
  rewrite <- (Qopp_involutive (nth j p 0%Q)), <- (Qopp_involutive (nth i p 0%Q)).
  apply Qopp_le_compat. assumption.
Qed.

Lemma argsort_neg_perm (argsort : list Q -> list nat) (p : list Q) :
  argsort_spec argsort ->
  Permutation (argsort (map Qopp p)) (seq 0 (length p)).
Proof.
  intros Hspec. destruct (Hspec (map Qopp p)) as [HP _].
  rewrite length_map in HP. exact HP.
Qed.

Lemma aggregate_some (argsort : list Q -> list nat) (res : ClsRes) (p : list Q) (k : nat) :
  r_probs res = Some p ->
  c_topk (aggregate argsort res k) = map (top_entry (r_names res) p) (top_idxs argsort p k).
Proof.
  intros Hp. unfold aggregate. rewrite Hp.
  destruct (map (top_entry (r_names res) p) (top_idxs argsort p k)); reflexivity.
Qed.

(** ** The stable reference argsort satisfies the contract *)

Lemma in_combine_seq (v : list Q) (s : nat) (a : Q) (i : nat) :
  In (a, i) (combine v (seq s (length v))) -> (s <= i)%nat /\ nth (i - s) v 0%Q = a.
Proof.
  revert s; induction v as [|x v IH]; intros s H; simpl in H; [contradiction|].
  destruct H as [H|H].
  - injection H as -> ->. rewrite Nat.sub_diag. simpl. auto.
  - destruct (IH (S s) H) as [Hle Hn]. split; [lia|].
    replace (i - s)%nat with (S (i - S s)) by lia. exact Hn.
Qed.

Lemma map_snd_combine_seq (v : list Q) (s : nat) :
  map snd (combine v (seq s (length v))) = seq s (length v).
Proof.
  revert s; induction v as [|x v IH]; intros s; simpl; [reflexivity|].
  f_equal. apply IH.
Qed.

Lemma stable_argsort_spec : argsort_spec stable_argsort.
Proof.
  intros v. unfold stable_argsort.
  set (l := combine v (seq 0 (length v))).
  split.
  - rewrite <- (map_snd_combine_seq v 0). fold l.
    apply Permutation_map. symmetry. apply KeyIdxSort.Permuted_sort.
  - apply (Sorted_map_rel (fun x y => is_true (KeyIdxLe.leb x y))).
    + intros [a i] [b j] Hx Hy H. simpl.
      apply (Permutation_in _ (Permutation_sym (KeyIdxSort.Permuted_sort l))) in Hx, Hy.
      apply in_combine_seq in Hx as [_ Hx]. apply in_combine_seq in Hy as [_ Hy].
      rewrite !Nat.sub_0_r in Hx, Hy. rewrite Hx, Hy.
      unfold KeyIdxLe.leb in H; simpl in H. apply Qle_bool_iff. exact H.
    + apply Sorted_LocallySorted_iff. apply KeyIdxSort.LocallySorted_sort.
Qed.

(** ** Claims on the aggregation of [classify_crop] *)

(** C6: for a present probability vector [p] and [k >= 1], under the
    contract of [np.argsort], [topk] has length [min(k, len p)], its
    confidences are non-increasing, and a non-empty [topk] has its head as
    the top-level [label] and [confidence]. *)
Theorem aggregate_topk_shape (argsort : list Q -> list nat) (res : ClsRes)
  (p : list Q) (k : nat) :
  argsort_spec argsort ->
  r_probs res = Some p -> (1 <= k)%nat ->
  let out := aggregate argsort res k in
  length (c_topk out) = Nat.min k (length p)
  /\ Sorted (fun a b => te_conf b <= te_conf a)%Q (c_topk out)
  /\ (forall e rest, c_topk out = e :: rest ->
        c_label out = Some (te_label e) /\ c_confidence out = Some (te_conf e)).
Proof.
  intros Hspec Hp Hk out. subst out.
  rewrite (aggregate_some argsort res p k Hp).
  split; [|split].
  - rewrite length_map. unfold top_idxs. rewrite length_firstn.
    rewrite (Permutation_length (argsort_neg_perm argsort p Hspec)), length_seq.
    reflexivity.
  - apply (Sorted_map_rel (fun i j => nth j p 0%Q <= nth i p 0%Q)%Q).
    + intros i j _ _ H. exact H.
    + apply Sorted_firstn. apply argsort_neg_sorted. exact Hspec.
  - intros e rest He. unfold aggregate. rewrite Hp, He. split; reflexivity.
Qed.

Lemma aggregate_topk_shape_witness :
  let out := aggregate stable_argsort (mkRes (Some probs_example) names_example) 3 in
  length (c_topk out) = Nat.min 3 (length probs_example)
  /\ Sorted (fun a b => te_conf b <= te_conf a)%Q (c_topk out)
  /\ (forall e rest, c_topk out = e :: rest ->
        c_label out = Some (te_label e) /\ c_confidence out = Some (te_conf e)).
Proof.
  exact (aggregate_topk_shape stable_argsort (mkRes (Some probs_example) names_example)
           probs_example 3 stable_argsort_spec eq_refl ltac:(lia)).
Defined.

(** C2 (amended): under the contract of [np.argsort], [topk] lists the
    entries of [idxs = argsort(-p)[:k]]: distinct class indices in range,
    each with a probability at least that of every unselected class, in
    non-increasing order of probability. *)
Theorem aggregate_selects_largest (argsort : list Q -> list nat) (res : ClsRes)
  (p : list Q) (k : nat) :
  argsort_spec argsort ->
  r_probs res = Some p -> (1 <= k)%nat ->
  let idxs := top_idxs argsort p k in
  c_topk (aggregate argsort res k) = map (top_entry (r_names res) p) idxs
  /\ NoDup idxs
  /\ (forall i, In i idxs -> (i < length p)%nat)
  /\ (forall i j, In i idxs -> (j < length p)%nat -> ~ In j idxs ->
        nth j p 0%Q <= nth i p 0%Q)%Q
  /\ Sorted (fun i j => nth j p 0%Q <= nth i p 0%Q)%Q idxs.
Proof.
  intros Hspec Hp Hk idxs.
  pose proof (argsort_neg_perm argsort p Hspec) as HP.
  pose proof (argsort_neg_sorted argsort p Hspec) as HS.
  set (l := argsort (map Qopp p)) in HP, HS.
  assert (Hl : l = idxs ++ skipn k l) by (symmetry; apply firstn_skipn).
  assert (Hin : forall i, In i l <-> (i < length p)%nat).
  { intros i. transitivity (In i (seq 0 (length p))).
    - split; intros H.
      + apply (Permutation_in _ HP H).
      + apply (Permutation_in _ (Permutation_sym HP) H).
    - rewrite in_seq. lia. }
  split; [apply aggregate_some; exact Hp|].
  split; [|split; [|split]].
  - apply (NoDup_app_remove_r _ (skipn k l)). rewrite <- Hl.
    apply (Permutation_NoDup (Permutation_sym HP)). apply seq_NoDup.
  - intros i Hi. apply Hin. rewrite Hl. apply in_or_app. auto.
  - intros i j Hi Hj Hnj.
    apply Sorted_StronglySorted in HS.
    + rewrite Hl in HS.
      apply (StronglySorted_app_rel (fun i j => nth j p 0%Q <= nth i p 0%Q)%Q
               idxs (skipn k l)); auto.
      apply Hin in Hj. rewrite Hl in Hj. apply in_app_or in Hj as [Hj|Hj]; tauto.
    + intros x y z Hxy Hyz. eapply Qle_trans; eassumption.
  - apply Sorted_firstn. exact HS.
Qed.

Lemma aggregate_selects_largest_witness :
  let idxs := top_idxs stable_argsort probs_example 2 in
  c_topk (aggregate stable_argsort (mkRes (Some probs_example) names_example) 2)
  = map (top_entry names_example probs_example) idxs
  /\ NoDup idxs
  /\ (forall i, In i idxs -> (i < length probs_example)%nat)
  /\ (forall i j, In i idxs -> (j < length probs_example)%nat -> ~ In j idxs ->
        nth j probs_example 0%Q <= nth i probs_example 0%Q)%Q
  /\ Sorted (fun i j => nth j probs_example 0%Q <= nth i probs_example 0%Q)%Q idxs.
Proof.
  exact (aggregate_selects_largest stable_argsort (mkRes (Some probs_example) names_example)
           probs_example 2 stable_argsort_spec eq_refl ltac:(lia)).
Defined.

(** C2 (counterexample): with numpy's scalar [aquicksort_], the claimed
    lowest-index tie-break fails: on eighteen equal probabilities and
    [k = 3], [topk] holds the classes [0; 15; 14], so class 15 is selected
    while the equally probable class 1 is not. *)
Lemma aggregate_tie_break_counterexample :
  top_idxs NumpyArgsort.argsort uniform18 3 = [0; 15; 14]%nat
  /\ map te_label (c_topk (aggregate NumpyArgsort.argsort
                              (mkRes (Some uniform18) names_example) 3))
     = ["0"; "15"; "14"]%string
  /\ ~ (forall (res : ClsRes) (p : list Q) (k i j : nat),
          r_probs res = Some p -> (1 <= k)%nat -> (i < j < length p)%nat ->
          nth i p 0%Q == nth j p 0%Q ->
          In j (top_idxs NumpyArgsort.argsort p k) ->
          In i (top_idxs NumpyArgsort.argsort p k)).
Proof.
  split; [vm_compute; reflexivity|]. split; [vm_compute; reflexivity|].
  intros H.
  specialize (H (mkRes (Some uniform18) names_example) uniform18 3%nat 1%nat 15%nat
                eq_refl ltac:(lia) ltac:(vm_compute; lia) ltac:(vm_compute; reflexivity)).
  assert (Hidx : top_idxs NumpyArgsort.argsort uniform18 3 = [0; 15; 14]%nat)
    by (vm_compute; reflexivity).
  rewrite Hidx in H.
  assert (H1 : In 1%nat [0; 15; 14]%nat) by (apply H; simpl; auto).
  simpl in H1. lia.
Qed.

(** ** The detection loop as a pure traversal *)

Lemma detection_loop_process_all argsort cv2_clahe cls_model det_names
  (np_img : NpImage) (imgsz : Z) (k : nat) (boxes : list DetBox) :
  forall (out : list Entry) (log : list NpImage),
  detection_loop argsort cv2_clahe cls_model det_names np_img imgsz k out boxes log =
  match process_all argsort cv2_clahe cls_model det_names np_img imgsz k boxes with
  | Some ecs => Some (out ++ map fst ecs, log ++ map snd ecs)
  | None => None
  end.
Proof.
  induction boxes as [|b rest IH]; intros out log; simpl.
  - rewrite !app_nil_r. reflexivity.
  - unfold bind at 1, enhance_for_cls, process_one.
    destruct (enhance_opt cv2_clahe (head_square_crop np_img (b_xyxy b))) as [c|];
      [|reflexivity].
    unfold bind, classify_crop, call_cls_model, bind, ret.
    destruct (cls_model c imgsz) as [r|]; [|reflexivity].
    fold (@bind (list Entry) (list Entry)). rewrite IH.
    destruct (process_all argsort cv2_clahe cls_model det_names np_img imgsz k rest);
      [|reflexivity].
    simpl. rewrite <- !app_assoc. reflexivity.
Qed.

Lemma process_all_nth argsort cv2_clahe cls_model det_names
  (np_img : NpImage) (imgsz : Z) (k : nat) (boxes : list DetBox) ecs :
  process_all argsort cv2_clahe cls_model det_names np_img imgsz k boxes = Some ecs ->
  length ecs = length boxes /\
  forall i b, nth_error boxes i = Some b ->
  exists ec, nth_error ecs i = Some ec /\
    process_one argsort cv2_clahe cls_model det_names np_img imgsz k b = Some ec.
Proof.
  revert ecs; induction boxes as [|b rest IH]; intros ecs H; simpl in H.
  - injection H as <-. split; [reflexivity|]. intros [|i] b Hb; discriminate.
  - destruct (process_one argsort cv2_clahe cls_model det_names np_img imgsz k b)
      as [ec|] eqn:E1; [|discriminate].
    destruct (process_all argsort cv2_clahe cls_model det_names np_img imgsz k rest)
      as [ecs'|] eqn:E2; [|discriminate].
    injection H as <-. destruct (IH ecs' eq_refl) as [Hl Hn].
    split; [simpl; congruence|].
    intros [|i] b' Hb; simpl in Hb.
    + injection Hb as <-. exists ec. auto.
    + apply Hn. exact Hb.
Qed.

Lemma process_one_entry argsort cv2_clahe cls_model det_names
  (np_img : NpImage) (imgsz : Z) (k : nat) (b : DetBox) ec :
  process_one argsort cv2_clahe cls_model det_names np_img imgsz k b = Some ec ->
  e_det (fst ec) = det_out det_names b /\
  exists c r, enhance_opt cv2_clahe (head_square_crop np_img (b_xyxy b)) = Some c /\
    cls_model c imgsz = Some r /\ e_cls (fst ec) = aggregate argsort r k.
Proof.
  unfold process_one.
  destruct (enhance_opt cv2_clahe (head_square_crop np_img (b_xyxy b))) as [c|];
    [|discriminate].
  destruct (cls_model c imgsz) as [r|] eqn:Er; [|discriminate].
  intros H. injection H as <-. simpl. split; [reflexivity|]. eauto.
Qed.

Lemma predict_success_loop argsort cv2_clahe cls_model det_model det_names
  (np_img : NpImage) conf iou imgsz k maxd log boxes w h out log' :
  det_model np_img conf iou maxd = Some boxes ->
  predict argsort cv2_clahe cls_model det_model det_names true np_img conf iou imgsz k
    maxd log = Some (Success w h out, log') ->
  exists ecs,
    process_all argsort cv2_clahe cls_model det_names np_img imgsz k boxes = Some ecs /\
    out = map fst ecs.
Proof.
  intros Hd Hp. unfold predict in Hp; simpl in Hp. rewrite Hd in Hp.
  destruct boxes as [|b0 rest0] eqn:Eb.
  - injection Hp as _ _ <- _. exists []. auto.
  - rewrite <- Eb in Hp |- *. unfold bind in Hp.
    rewrite detection_loop_process_all in Hp.
    destruct (process_all argsort cv2_clahe cls_model det_names np_img imgsz k boxes)
      as [ecs|]; [|discriminate].
    unfold ret in Hp. injection Hp as _ _ <- _. exists ecs. auto.
Qed.

(** ** Claims on [predict] *)

(** C3: whenever [predict] returns its success result for the boxes
    emitted by the detector, ["detections"] has exactly one entry per box,
    in the detector's order, entry [i]'s ["det"] built from box [i]. *)
Theorem predict_one_entry_per_detection argsort cv2_clahe cls_model det_model det_names
  (np_img : NpImage) conf iou imgsz k maxd log boxes w h out log' :
  det_model np_img conf iou maxd = Some boxes ->
  predict argsort cv2_clahe cls_model det_model det_names true np_img conf iou imgsz k
    maxd log = Some (Success w h out, log') ->
  map e_det out = map (det_out det_names) boxes
  /\ length out = length boxes
  /\ (forall i b, nth_error boxes i = Some b ->
        exists e, nth_error out i = Some e /\ e_det e = det_out det_names b).
Proof.
  intros Hd Hp.
  destruct (predict_success_loop _ _ _ _ _ _ _ _ _ _ _ _ _ _ _ _ _ Hd Hp) as [ecs [Ha ->]].
  destruct (process_all_nth _ _ _ _ _ _ _ _ _ Ha) as [Hl Hn].
  assert (Hm : map e_det (map fst ecs) = map (det_out det_names) boxes).
  { apply nth_ext with (d := det_out det_names (mkDetBox (0, 0, 0, 0)%Q 0%Q None))
                       (d' := det_out det_names (mkDetBox (0, 0, 0, 0)%Q 0%Q None)).
    - rewrite !length_map. exact Hl.
    - intros i Hi. rewrite !length_map in Hi. rewrite Hl in Hi.
      destruct (nth_error boxes i) as [b|] eqn:Eb.
      2:{ apply nth_error_None in Eb. lia. }
      destruct (Hn i b Eb) as [ec [Eec Hone]].
      apply (map_nth_error fst), (map_nth_error e_det) in Eec.
      apply (map_nth_error (det_out det_names)) in Eb.
      rewrite (nth_error_nth _ _ _ Eec), (nth_error_nth _ _ _ Eb).
      apply (process_one_entry _ _ _ _ _ _ _ _ _ Hone). }
  split; [exact Hm|]. split; [rewrite length_map; exact Hl|].
  intros i b Hb. destruct (Hn i b Hb) as [ec [Eec Hone]].
  exists (fst ec). split; [apply map_nth_error; exact Eec|].
  apply (process_one_entry _ _ _ _ _ _ _ _ _ Hone).
Qed.

(** C7: a classifier miss ([res.probs is None]) for one crop yields the
    null result in that entry while every entry keeps its detection and
    order; and a miss never aborts the request: [predict] succeeds whenever
    no enhancement or classifier call raises, whatever [probs] they
    return. *)
Theorem predict_classifier_miss argsort cv2_clahe cls_model det_model det_names
  (np_img : NpImage) conf iou imgsz k maxd log boxes :
  det_model np_img conf iou maxd = Some boxes ->
  (forall w h out log',
     predict argsort cv2_clahe cls_model det_model det_names true np_img conf iou imgsz k
       maxd log = Some (Success w h out, log') ->
     map e_det out = map (det_out det_names) boxes
     /\ forall i b c r, nth_error boxes i = Some b ->
        enhance_opt cv2_clahe (head_square_crop np_img (b_xyxy b)) = Some c ->
        cls_model c imgsz = Some r ->
        exists e, nth_error out i = Some e /\ e_cls e = aggregate argsort r k
                  /\ (r_probs r = None -> e_cls e = null_cls))
  /\ ((forall b, In b boxes -> exists c r,
         enhance_opt cv2_clahe (head_square_crop np_img (b_xyxy b)) = Some c /\
         cls_model c imgsz = Some r) ->
      exists out log',
        predict argsort cv2_clahe cls_model det_model det_names true np_img conf iou
          imgsz k maxd log = Some (Success (np_w np_img) (np_h np_img) out, log')).
Proof.
  intros Hd. split.
  - intros w h out log' Hp.
    split; [apply (predict_one_entry_per_detection _ _ _ _ _ _ _ _ _ _ _ _ _ _ _ _ _ Hd Hp)|].
    destruct (predict_success_loop _ _ _ _ _ _ _ _ _ _ _ _ _ _ _ _ _ Hd Hp) as [ecs [Ha ->]].
    destruct (process_all_nth _ _ _ _ _ _ _ _ _ Ha) as [_ Hn].
    intros i b c r Hb Hc Hr.
    destruct (Hn i b Hb) as [ec [Eec Hone]].
    destruct (process_one_entry _ _ _ _ _ _ _ _ _ Hone) as [_ [c' [r' [Hc' [Hr' He]]]]].
    rewrite Hc in Hc'. injection Hc' as <-. rewrite Hr in Hr'. injection Hr' as <-.
    exists (fst ec). split; [apply map_nth_error; exact Eec|].
    split; [exact He|]. intros Hnone. rewrite He. unfold aggregate. rewrite Hnone.
    reflexivity.
  - intros Hall.
    assert (Hpa : exists ecs,
      process_all argsort cv2_clahe cls_model det_names np_img imgsz k boxes = Some ecs).
    { clear Hd. induction boxes as [|b rest IH]; simpl; [eauto|].
      destruct (Hall b (or_introl eq_refl)) as [c [r [Hc Hr]]].
      unfold process_one at 1. rewrite Hc, Hr.
      destruct IH as [ecs Hecs]; [intros b' Hb'; apply Hall; simpl; auto|].
      rewrite Hecs. eauto. }
    destruct Hpa as [ecs Hecs].
    unfold predict; simpl. rewrite Hd.
    destruct boxes as [|b0 rest0]; [unfold ret; eauto|].
    unfold bind.
    rewrite detection_loop_process_all, Hecs. unfold ret. eauto.
Qed.

(** C8: when the detector returns no boxes ([None] or an empty list),
    [predict] returns the success result with an empty ["detections"] list
    and the classifier is never called (the call log is unchanged). *)
Theorem predict_no_detections argsort cv2_clahe cls_model det_model det_names
  (np_img : NpImage) conf iou imgsz k maxd log :
  det_model np_img conf iou maxd = Some [] \/ det_model np_img conf iou maxd = None ->
  predict argsort cv2_clahe cls_model det_model det_names true np_img conf iou imgsz k
    maxd log = Some (Success (np_w np_img) (np_h np_img) [], log).
Proof.
  intros [Hd|Hd]; unfold predict; simpl; rewrite Hd; reflexivity.
Qed.

Lemma predict_one_entry_per_detection_witness :
  exists w h out log',
    predict stable_argsort None cls_model_ex (det_model_ex boxes_ex) det_names_ex true
      img_ex (1 # 5) (7 # 10) 1024 3 50 [] = Some (Success w h out, log')
    /\ map e_det out = map (det_out det_names_ex) boxes_ex
    /\ length out = length boxes_ex
    /\ (forall i b, nth_error boxes_ex i = Some b ->
          exists e, nth_error out i = Some e /\ e_det e = det_out det_names_ex b).
Proof.
  do 4 eexists. split; [cbv; reflexivity|].
  eapply (predict_one_entry_per_detection stable_argsort None cls_model_ex
            (det_model_ex boxes_ex) det_names_ex img_ex (1 # 5) (7 # 10) 1024 3 50 []
            boxes_ex); [reflexivity|vm_compute; reflexivity].
Defined.

Lemma predict_classifier_miss_witness :
  exists out log',
    predict stable_argsort None cls_model_ex (det_model_ex boxes_ex) det_names_ex true
      img_ex (1 # 5) (7 # 10) 1024 3 50 [] = Some (Success 20 20 out, log')
    /\ exists e, nth_error out 0 = Some e /\ e_cls e = null_cls.
Proof.
  destruct (proj2 (predict_classifier_miss stable_argsort None cls_model_ex
                     (det_model_ex boxes_ex) det_names_ex img_ex (1 # 5) (7 # 10) 1024 3 50 []
                     boxes_ex eq_refl)) as [out [log' Hp]].
  { intros b Hb. simpl in Hb. destruct Hb as [<-|[<-|[]]]; do 2 eexists; split; reflexivity. }
  exists out, log'. split; [exact Hp|].
  destruct (proj1 (predict_classifier_miss stable_argsort None cls_model_ex
                     (det_model_ex boxes_ex) det_names_ex img_ex (1 # 5) (7 # 10) 1024 3 50 []
                     boxes_ex eq_refl) _ _ _ _ Hp) as [_ Hn].
  destruct (Hn 0%nat box_small (head_square_crop img_ex (b_xyxy box_small))
              (mkRes None names_example) eq_refl eq_refl eq_refl) as [e [He [_ Hnull]]].
  exists e. split; [exact He|]. apply Hnull. reflexivity.
Defined.

Lemma predict_no_detections_witness :
  predict stable_argsort None cls_model_ex (det_model_ex []) det_names_ex true
    img_ex (1 # 5) (7 # 10) 1024 3 50 [] = Some (Success 20 20 [], []).
Proof. apply (predict_no_detections stable_argsort None cls_model_ex (det_model_ex []) det_names_ex img_ex (1 # 5) (7 # 10) 1024 3 50 []). left. reflexivity. Defined.

(** ** Further properties: crops *)

Lemma in_skipn_in {A : Type} (n : nat) (l : list A) (x : A) :
  In x (skipn n l) -> In x l.
Proof. intros H. rewrite <- (firstn_skipn n l). apply in_or_app. auto. Qed.

Lemma in_firstn_in {A : Type} (n : nat) (l : list A) (x : A) :
  In x (firstn n l) -> In x l.
Proof. intros H. rewrite <- (firstn_skipn n l). apply in_or_app. auto. Qed.

Lemma slice_length {A : Type} (a b : nat) (l : list A) :
  (a <= b <= length l)%nat -> length (skipn a (firstn b l)) = (b - a)%nat.
Proof. intros H. rewrite length_skipn, length_firstn. lia. Qed.

Lemma slice_nth {A : Type} (a b : nat) (l : list A) (r : nat) (d : A) :
  (a + r < b)%nat -> nth r (skipn a (firstn b l)) d = nth (a + r) l d.
Proof.
  intros H. rewrite nth_skipn, nth_firstn.
  destruct (Nat.ltb_spec (a + r) b); [reflexivity|lia].
Qed.

Lemma rect_image_np_w (img : NpImage) (w h : nat) :
  (1 <= h)%nat -> rect_image img w h -> np_w img = Z.of_nat w.
Proof.
  intros Hh [Hl Hf]. destruct img as [|row rest]; simpl in Hl; [lia|].
  inversion Hf; subst. unfold np_w. simpl. congruence.
Qed.

Lemma np_crop_shape (img : NpImage) (w h : nat) (x1 y1 x2 y2 : Z) :
  rect_image img w h ->
  0 <= x1 -> x1 <= x2 -> x2 <= Z.of_nat w ->
  0 <= y1 -> y1 <= y2 -> y2 <= Z.of_nat h ->
  let crop := np_crop img (x1, y1, x2, y2) in
  length crop = Z.to_nat (y2 - y1)
  /\ Forall (fun row => length row = Z.to_nat (x2 - x1)) crop
  /\ (forall r c, (r < Z.to_nat (y2 - y1))%nat -> (c < Z.to_nat (x2 - x1))%nat ->
        nth c (nth r crop []) (0, 0, 0)
        = nth (Z.to_nat x1 + c) (nth (Z.to_nat y1 + r) img []) (0, 0, 0)).
Proof.
  intros [Hl Hf] Hx1 Hx Hxw Hy1 Hy Hyh crop. unfold crop, np_crop.
  split; [|split]; [unfold py_slice..|].
  - rewrite length_map, slice_length by lia. lia.
  - apply Forall_map, Forall_forall. intros row Hrow.
    apply in_skipn_in, in_firstn_in in Hrow.
    rewrite Forall_forall in Hf. specialize (Hf row Hrow).
    rewrite slice_length by lia. lia.
  - intros r c Hr Hc.
    assert (Hlen : (r < length (skipn (Z.to_nat y1) (firstn (Z.to_nat y2) img)))%nat)
      by (rewrite slice_length by lia; lia).
    rewrite (nth_indep _ [] (py_slice x1 x2 []))
      by (rewrite length_map; exact Hlen).
    rewrite map_nth. unfold py_slice. rewrite (slice_nth _ _ _ r) by lia.
    apply slice_nth. lia.
Qed.

(** X1: on an image of [h] rows of [w >= 1] pixels ([h >= 1]),
    [crop_rgb] returns exactly the pixels of the clipped box: [y2 - y1] rows
    of [x2 - x1] pixels, pixel [(r, c)] being pixel [(y1 + r, x1 + c)] of
    the image. *)
Theorem crop_rgb_shape (img : NpImage) (w h : nat) (box : QBox) :
  (1 <= w)%nat -> (1 <= h)%nat -> rect_image img w h ->
  let '(x1, y1, x2, y2) := clip box (Z.of_nat w) (Z.of_nat h) in
  let crop := crop_rgb img box in
  length crop = Z.to_nat (y2 - y1)
  /\ Forall (fun row => length row = Z.to_nat (x2 - x1)) crop
  /\ (forall r c, (r < Z.to_nat (y2 - y1))%nat -> (c < Z.to_nat (x2 - x1))%nat ->
        nth c (nth r crop []) (0, 0, 0)
        = nth (Z.to_nat x1 + c) (nth (Z.to_nat y1 + r) img []) (0, 0, 0)).
Proof.
  intros Hw Hh Hr.
  pose proof (clip_bounds box (Z.of_nat w) (Z.of_nat h) ltac:(lia) ltac:(lia)) as HB.
  unfold crop_rgb. rewrite (rect_image_np_w img w h Hh Hr).
  replace (np_h img) with (Z.of_nat h) by (unfold np_h; destruct Hr; congruence).
  destruct (clip box (Z.of_nat w) (Z.of_nat h)) as [[[x1 y1] x2] y2].
  apply (np_crop_shape img w h); tauto || lia.
Qed.

Lemma crop_rgb_shape_witness :
  let '(x1, y1, x2, y2) := clip ((3 # 2), (-4 # 1), (30 # 1), (7 # 1))%Q
                              (Z.of_nat 20) (Z.of_nat 20) in
  let crop := crop_rgb img_ex ((3 # 2), (-4 # 1), (30 # 1), (7 # 1))%Q in
  length crop = Z.to_nat (y2 - y1)
  /\ Forall (fun row => length row = Z.to_nat (x2 - x1)) crop
  /\ (forall r c, (r < Z.to_nat (y2 - y1))%nat -> (c < Z.to_nat (x2 - x1))%nat ->
        nth c (nth r crop []) (0, 0, 0)
        = nth (Z.to_nat x1 + c) (nth (Z.to_nat y1 + r) img_ex []) (0, 0, 0)).
Proof.
  apply (crop_rgb_shape img_ex 20 20); [lia|lia|].
  split; [reflexivity|]. unfold img_ex. simpl. repeat constructor.
Defined.

(** X2: [clip_box] leaves a valid integer box unchanged: if
    [0 <= x1 < x2 <= w-1] and [0 <= y1 < y2 <= h-1], the output is the
    input. *)
Theorem clip_box_valid_fixed (w h x1 y1 x2 y2 : Z) :
  0 <= x1 -> x1 < x2 -> x2 <= w - 1 -> 0 <= y1 -> y1 < y2 -> y2 <= h - 1 ->
  clip (qbox_of_zbox (x1, y1, x2, y2)) w h = (x1, y1, x2, y2).
Proof.
  intros. unfold clip, qbox_of_zbox, clip_box. rewrite !py_int_inject_Z.
  replace (Z.max 0 (Z.min x1 (w - 1))) with x1 by lia.
  replace (Z.max 0 (Z.min x2 (w - 1))) with x2 by lia.
  replace (Z.max 0 (Z.min y1 (h - 1))) with y1 by lia.
  replace (Z.max 0 (Z.min y2 (h - 1))) with y2 by lia.
  destruct (Z.leb_spec x2 x1); [lia|]. destruct (Z.leb_spec y2 y1); [lia|].
  reflexivity.
Qed.

Lemma clip_box_valid_fixed_witness :
  clip (qbox_of_zbox (3, 4, 10, 19)) 20 20 = (3, 4, 10, 19).
Proof. apply clip_box_valid_fixed; lia. Defined.

(** ** Further properties: [head_square_crop] *)

Lemma head_square_crop_box (img : NpImage) (box : QBox) :
  head_square_crop img box = np_crop img (head_square_box (np_w img) (np_h img) box).
Proof.
  unfold head_square_crop, head_square_box.
  destruct (head_square_plan (np_w img) (np_h img) box); reflexivity.
Qed.

Lemma head_square_plan_fallback (w h : Z) (box : QBox) (x1 y1 x2 y2 : Z) :
  clip box w h = (x1, y1, x2, y2) -> x2 - x1 < 2 -> y2 - y1 < 2 ->
  head_square_plan w h box = Fallback (x1, y1, x2, y2).
Proof.
  intros Hc Hx Hy. unfold head_square_plan. rewrite Hc. cbv zeta.
  destruct (Z.ltb_spec (Z.max (x2 - x1) (y2 - y1)) 2); [reflexivity|lia].
Qed.

(** X3: when the clipped box is less than 2 pixels wide and less than 2
    pixels high, [head_square_crop] returns exactly [crop_rgb] of the
    detector box (no square is built). *)
Theorem head_square_crop_small_box (img : NpImage) (box : QBox) (x1 y1 x2 y2 : Z) :
  1 <= np_w img -> 1 <= np_h img ->
  clip box (np_w img) (np_h img) = (x1, y1, x2, y2) ->
  x2 - x1 < 2 -> y2 - y1 < 2 ->
  head_square_crop img box = crop_rgb img box.
Proof.
  intros Hw Hh Hc Hx Hy. unfold head_square_crop.
  rewrite (head_square_plan_fallback _ _ _ _ _ _ _ Hc Hx Hy).
  unfold crop_rgb. rewrite <- Hc. rewrite clip_box_idempotent_helper by assumption.
  reflexivity.
Qed.

Lemma head_square_crop_small_box_witness :
  head_square_crop img_ex ((5 # 1), (5 # 1), (6 # 1), (6 # 1))%Q
  = crop_rgb img_ex ((5 # 1), (5 # 1), (6 # 1), (6 # 1))%Q.
Proof.
  apply (head_square_crop_small_box img_ex _ 5 5 6 6);
    [vm_compute; discriminate|vm_compute; discriminate|vm_compute; reflexivity|lia|lia].
Defined.

Lemma head_square_plan_square (w h : Z) (box : QBox) (x1 y1 x2 y2 : Z) :
  1 <= w -> 1 <= h ->
  clip box w h = (x1, y1, x2, y2) ->
  2 <= Z.max (x2 - x1) (y2 - y1) ->
  let side := Z.max (x2 - x1) (y2 - y1) in
  let cx := Qfloor (inject_Z (x1 + x2) / 2) in
  let cy := Qfloor (inject_Z y1 + (45 # 100) * inject_Z (y2 - y1)) in
  let side2 := side + 2 * Qfloor (inject_Z side * (5 # 100)) in
  head_square_plan w h box = Square (cx - side2, cy - side2, cx - side2 + side2, cy - side2 + side2).
Proof.
  intros Hw Hh Hc Hs side cx cy side2.
  pose proof (clip_bounds box w h Hw Hh) as HB. rewrite Hc in HB.
  unfold head_square_plan. rewrite Hc.
  subst side2 cy cx side. cbv zeta.
  destruct (Z.ltb_spec (Z.max (x2 - x1) (y2 - y1)) 2) as [Hlt|_]; [lia|].
  rewrite (Qmult_comm (45 # 100)).
  rewrite !py_int_floor by (unfold Qle; simpl; lia).
  reflexivity.
Qed.

Lemma head_anchor_bounds (x1 y1 x2 y2 side : Z) :
  0 <= x1 <= x2 -> 0 <= y1 <= y2 -> 0 <= side ->
  (0 <= Qfloor (inject_Z (x1 + x2) / 2) <= x2)
  /\ (y1 <= Qfloor (inject_Z y1 + (45 # 100) * inject_Z (y2 - y1)) <= y2)
  /\ 0 <= Qfloor (inject_Z side * (5 # 100)).
Proof.
  intros Hx Hy Hs.
  cbv [Qfloor Qplus Qmult Qdiv Qinv inject_Z Qnum Qden Pos.mul Pos.add].
  split; [|split]; Z.to_euclidean_division_equations; lia.
Qed.

Lemma clip_axis_square (c s n : Z) :
  2 <= n -> 0 <= c <= n - 1 -> 1 <= s ->
  clip_axis (inject_Z (c - s)) (inject_Z (c - s + s)) n = (Z.max 0 (c - s), Z.max 1 c).
Proof.
  intros Hn Hc Hs. unfold clip_axis. rewrite !py_int_inject_Z.
  replace (c - s + s) with c by lia.
  replace (Z.max 0 (Z.min (c - s) (n - 1))) with (Z.max 0 (c - s)) by lia.
  replace (Z.max 0 (Z.min c (n - 1))) with c by lia.
  f_equal. destruct (Z.leb_spec c (Z.max 0 (c - s))); lia.
Qed.

Lemma head_square_box_corners (w h : Z) (box : QBox) (x1 y1 x2 y2 : Z) :
  2 <= w -> 2 <= h ->
  clip box w h = (x1, y1, x2, y2) ->
  2 <= Z.max (x2 - x1) (y2 - y1) ->
  let side := Z.max (x2 - x1) (y2 - y1) in
  let cx := Qfloor (inject_Z (x1 + x2) / 2) in
  let cy := Qfloor (inject_Z y1 + (45 # 100) * inject_Z (y2 - y1)) in
  let side2 := side + 2 * Qfloor (inject_Z side * (5 # 100)) in
  head_square_box w h box
  = (Z.max 0 (cx - side2), Z.max 0 (cy - side2), Z.max 1 cx, Z.max 1 cy)
  /\ 2 <= side2 /\ 0 <= cx <= w - 1 /\ 0 <= cy <= h - 1.
Proof.
  intros Hw Hh Hc Hs side cx cy side2.
  pose proof (clip_bounds box w h ltac:(lia) ltac:(lia)) as HB. rewrite Hc in HB.
  destruct (head_anchor_bounds x1 y1 x2 y2 side ltac:(lia) ltac:(lia) ltac:(lia))
    as [Hcx [Hcy Hpad]].
  fold cx cy in Hcx, Hcy.
  assert (Hs2 : 2 <= side2) by (subst side2 side; lia).
  split; [|lia].
  unfold head_square_box.
  rewrite (head_square_plan_square w h box x1 y1 x2 y2 ltac:(lia) ltac:(lia) Hc Hs).
  fold side cx cy side2.
  unfold clip, qbox_of_zbox. rewrite clip_axes.
  rewrite (clip_axis_square cx side2 w), (clip_axis_square cy side2 h) by lia.
  reflexivity.
Qed.

(** X4: on an image with [w, h >= 2], when the clipped box has
    [side = max(bw, bh) >= 2], the final box of [head_square_crop] is
    [(max(0, cx - side2), max(0, cy - side2), max(1, cx), max(1, cy))]: the
    square is cut only at the top and left image edges, its bottom-right
    corner [(cx, cy)] always lies inside the image, and the final box is
    never empty ([x1 < x2], [y1 < y2]). *)
Theorem head_square_box_square (w h : Z) (box : QBox) (x1 y1 x2 y2 : Z) :
  2 <= w -> 2 <= h ->
  clip box w h = (x1, y1, x2, y2) ->
  2 <= Z.max (x2 - x1) (y2 - y1) ->
  let side := Z.max (x2 - x1) (y2 - y1) in
  let cx := Qfloor (inject_Z (x1 + x2) / 2) in
  let cy := Qfloor (inject_Z y1 + (45 # 100) * inject_Z (y2 - y1)) in
  let side2 := side + 2 * Qfloor (inject_Z side * (5 # 100)) in
  head_square_box w h box
  = (Z.max 0 (cx - side2), Z.max 0 (cy - side2), Z.max 1 cx, Z.max 1 cy)
  /\ Z.max 0 (cx - side2) < Z.max 1 cx /\ Z.max 0 (cy - side2) < Z.max 1 cy.
Proof.
  intros Hw Hh Hc Hs side cx cy side2.
  destruct (head_square_box_corners w h box x1 y1 x2 y2 Hw Hh Hc Hs) as [He Hb].
  fold side cx cy side2 in He, Hb.
  split; [exact He|lia].
Qed.

Lemma head_square_box_square_witness :
  let side := Z.max (60 - 40) (80 - 20) in
  let cx := Qfloor (inject_Z (40 + 60) / 2) in
  let cy := Qfloor (inject_Z 20 + (45 # 100) * inject_Z (80 - 20)) in
  let side2 := side + 2 * Qfloor (inject_Z side * (5 # 100)) in
  head_square_box 200 200 ((40 # 1), (20 # 1), (60 # 1), (80 # 1))%Q
  = (Z.max 0 (cx - side2), Z.max 0 (cy - side2), Z.max 1 cx, Z.max 1 cy)
  /\ Z.max 0 (cx - side2) < Z.max 1 cx /\ Z.max 0 (cy - side2) < Z.max 1 cy.
Proof.
  exact (head_square_box_square 200 200 ((40 # 1), (20 # 1), (60 # 1), (80 # 1))%Q
           40 20 60 80 ltac:(lia) ltac:(lia) ltac:(vm_compute; reflexivity)
           ltac:(vm_compute; discriminate)).
Defined.

(** X5: on an image of [h >= 2] rows of [w >= 2] pixels, when the square
    of [head_square_crop] lies inside the image ([side2 <= cx] and
    [side2 <= cy]), the returned crop is exactly [side2] rows of [side2]
    pixels. *)
Theorem head_square_crop_full_square (img : NpImage) (w h : nat) (box : QBox)
  (x1 y1 x2 y2 : Z) :
  (2 <= w)%nat -> (2 <= h)%nat -> rect_image img w h ->
  clip box (Z.of_nat w) (Z.of_nat h) = (x1, y1, x2, y2) ->
  2 <= Z.max (x2 - x1) (y2 - y1) ->
  let side := Z.max (x2 - x1) (y2 - y1) in
  let cx := Qfloor (inject_Z (x1 + x2) / 2) in
  let cy := Qfloor (inject_Z y1 + (45 # 100) * inject_Z (y2 - y1)) in
  let side2 := side + 2 * Qfloor (inject_Z side * (5 # 100)) in
  side2 <= cx -> side2 <= cy ->
  length (head_square_crop img box) = Z.to_nat side2
  /\ Forall (fun row => length row = Z.to_nat side2) (head_square_crop img box).
Proof.
  intros Hw Hh Hr Hc Hs side cx cy side2 Hx Hy.
  destruct (head_square_box_corners (Z.of_nat w) (Z.of_nat h) box x1 y1 x2 y2
              ltac:(lia) ltac:(lia) Hc Hs) as [He Hb].
  fold side cx cy side2 in He, Hb.
  rewrite head_square_crop_box, (rect_image_np_w img w h ltac:(lia) Hr).
  replace (np_h img) with (Z.of_nat h) by (unfold np_h; destruct Hr; congruence).
  rewrite He.
  replace (Z.max 0 (cx - side2)) with (cx - side2) by lia.
  replace (Z.max 0 (cy - side2)) with (cy - side2) by lia.
  replace (Z.max 1 cx) with cx by lia. replace (Z.max 1 cy) with cy by lia.
  destruct (np_crop_shape img w h (cx - side2) (cy - side2) cx cy Hr
              ltac:(lia) ltac:(lia) ltac:(lia) ltac:(lia) ltac:(lia) ltac:(lia))
    as [Hl [Hf _]].
  replace (cy - (cy - side2)) with side2 in Hl by lia.
  replace (cx - (cx - side2)) with side2 in Hf by lia.
  split; assumption.
Qed.

Lemma head_square_crop_full_square_witness :
  length (head_square_crop img_ex ((8 # 1), (8 # 1), (12 # 1), (12 # 1))%Q) = Z.to_nat 4
  /\ Forall (fun row => length row = Z.to_nat 4)
       (head_square_crop img_ex ((8 # 1), (8 # 1), (12 # 1), (12 # 1))%Q).
Proof.
  apply (head_square_crop_full_square img_ex 20 20 _ 8 8 12 12); try lia.
  all: try (split; [reflexivity|]; unfold img_ex; simpl; repeat constructor).
  all: vm_compute; first [reflexivity | discriminate].
Defined.

(** ** Further properties: the aggregation of [classify_crop] *)

(** X6: under the contract of [np.argsort], for a present non-empty
    probability vector and [topk >= 1], the top-level ["confidence"] is the
    largest probability and the top-level ["label"] is the name of a class
    index in range that carries it. *)
Theorem aggregate_confidence_is_max (argsort : list Q -> list nat) (res : ClsRes)
  (p : list Q) (k : nat) :
  argsort_spec argsort ->
  r_probs res = Some p -> (1 <= k)%nat -> p <> [] ->
  exists i, (i < length p)%nat
    /\ c_label (aggregate argsort res k) = Some (r_names res i)
    /\ c_confidence (aggregate argsort res k) = Some (nth i p 0%Q)
    /\ (forall j, (j < length p)%nat -> nth j p 0%Q <= nth i p 0%Q)%Q.
Proof.
  intros Hspec Hp Hk Hne.
  pose proof (argsort_neg_perm argsort p Hspec) as HP.
  pose proof (argsort_neg_sorted argsort p Hspec) as HS.
  assert (Hagg : aggregate argsort res k
                 = match argsort (map Qopp p) with
                   | [] => mkCls None None []
                   | i :: rest =>
                       mkCls (Some (r_names res i)) (Some (nth i p 0%Q))
                         (map (top_entry (r_names res) p) (firstn k (i :: rest)))
                   end).
  { unfold aggregate, top_idxs. rewrite Hp.
    destruct (argsort (map Qopp p)); [destruct k; reflexivity|].
    destruct k; [lia|reflexivity]. }
  rewrite Hagg. clear Hagg.
  destruct (argsort (map Qopp p)) as [|i rest].
  { apply Permutation_length in HP. rewrite length_seq in HP.
    destruct p; [congruence|discriminate]. }
  assert (Hin : forall j, In j (i :: rest) <-> (j < length p)%nat).
  { intros j. split; intros H.
    - apply (Permutation_in _ HP) in H. apply in_seq in H. lia.
    - apply (Permutation_in _ (Permutation_sym HP)). apply in_seq. lia. }
  exists i. split; [apply Hin; left; reflexivity|].
  split; [reflexivity|]. split; [reflexivity|].
  intros j Hj. apply Hin in Hj. destruct Hj as [<-|Hj]; [apply Qle_refl|].
  apply Sorted_StronglySorted in HS.
  - apply StronglySorted_inv in HS as [_ HF]. rewrite Forall_forall in HF.
    exact (HF j Hj).
  - intros x y z Hxy Hyz. eapply Qle_trans; eassumption.
Qed.

Lemma aggregate_confidence_is_max_witness :
  exists i, (i < length probs_example)%nat
    /\ c_label (aggregate stable_argsort (mkRes (Some probs_example) names_example) 3)
       = Some (names_example i)
    /\ c_confidence (aggregate stable_argsort (mkRes (Some probs_example) names_example) 3)
       = Some (nth i probs_example 0%Q)
    /\ (forall j, (j < length probs_example)%nat ->
          nth j probs_example 0%Q <= nth i probs_example 0%Q)%Q.
Proof.
  exact (aggregate_confidence_is_max stable_argsort (mkRes (Some probs_example) names_example)
           probs_example 3 stable_argsort_spec eq_refl ltac:(lia) ltac:(discriminate)).
Defined.

(** X7: under the contract of [np.argsort], a present but empty
    probability vector yields the same null result as a missing one:
    [label] and [confidence] are [None] and [topk] is empty. *)
Theorem aggregate_empty_probs (argsort : list Q -> list nat) (res : ClsRes) (k : nat) :
  argsort_spec argsort ->
  r_probs res = Some [] ->
  aggregate argsort res k = null_cls.
Proof.
  intros Hspec Hp.
  pose proof (argsort_neg_perm argsort [] Hspec) as HP. simpl in HP.
  apply Permutation_sym, Permutation_nil in HP.
  unfold aggregate, top_idxs. rewrite Hp. change (map Qopp []) with (@nil Q).
  rewrite HP. destruct k; reflexivity.
Qed.

Lemma aggregate_empty_probs_witness :
  aggregate stable_argsort (mkRes (Some []) names_example) 3 = null_cls.
Proof.
  exact (aggregate_empty_probs stable_argsort (mkRes (Some []) names_example) 3
           stable_argsort_spec eq_refl).
Defined.

(** ** Further properties: the classifier calls of [predict] *)

Lemma process_one_inv argsort cv2_clahe cls_model det_names
  (np_img : NpImage) (imgsz : Z) (k : nat) (b : DetBox) ec :
  process_one argsort cv2_clahe cls_model det_names np_img imgsz k b = Some ec ->
  exists c r, enhance_opt cv2_clahe (head_square_crop np_img (b_xyxy b)) = Some c /\
    cls_model c imgsz = Some r /\
    ec = (mkEntry (det_out det_names b) (aggregate argsort r k), c).
Proof.
  unfold process_one.
  destruct (enhance_opt cv2_clahe (head_square_crop np_img (b_xyxy b))) as [c|];
    [|discriminate].
  destruct (cls_model c imgsz) as [r|] eqn:Er; [|discriminate].
  intros H. injection H as <-. exists c, r. auto.
Qed.

Lemma process_all_Forall2 argsort cv2_clahe cls_model det_names
  (np_img : NpImage) (imgsz : Z) (k : nat) (boxes : list DetBox) ecs :
  process_all argsort cv2_clahe cls_model det_names np_img imgsz k boxes = Some ecs ->
  Forall2 (fun b ec =>
    process_one argsort cv2_clahe cls_model det_names np_img imgsz k b = Some ec) boxes ecs.
Proof.
  revert ecs; induction boxes as [|b rest IH]; intros ecs H; simpl in H.
  - injection H as <-. constructor.
  - destruct (process_one argsort cv2_clahe cls_model det_names np_img imgsz k b)
      as [ec|] eqn:E1; [|discriminate].
    destruct (process_all argsort cv2_clahe cls_model det_names np_img imgsz k rest)
      as [ecs'|]; [|discriminate].
    injection H as <-. constructor; [exact E1|apply IH; reflexivity].
Qed.

Lemma process_Forall2_split argsort cv2_clahe cls_model det_names
  (np_img : NpImage) (imgsz : Z) (k : nat) (boxes : list DetBox) ecs :
  Forall2 (fun b ec =>
    process_one argsort cv2_clahe cls_model det_names np_img imgsz k b = Some ec) boxes ecs ->
  Forall2 (fun b c => enhance_opt cv2_clahe (head_square_crop np_img (b_xyxy b)) = Some c)
    boxes (map snd ecs)
  /\ Forall2 (fun c e => exists r, cls_model c imgsz = Some r /\ e_cls e = aggregate argsort r k)
       (map snd ecs) (map fst ecs).
Proof.
  induction 1 as [|b ec boxes ecs Hone _ [IH1 IH2]]; simpl; [split; constructor|].
  destruct (process_one_inv _ _ _ _ _ _ _ _ _ Hone) as [c [r [Hc [Hr ->]]]].
  simpl. split; constructor; eauto.
Qed.

Lemma process_all_none argsort cv2_clahe cls_model det_names
  (np_img : NpImage) (imgsz : Z) (k : nat) (boxes : list DetBox) (b : DetBox) :
  In b boxes ->
  process_one argsort cv2_clahe cls_model det_names np_img imgsz k b = None ->
  process_all argsort cv2_clahe cls_model det_names np_img imgsz k boxes = None.
Proof.
  induction boxes as [|b' rest IH]; simpl; intros Hin Hb; [contradiction|].
  destruct Hin as [->|Hin]; [rewrite Hb; reflexivity|].
  destruct (process_one argsort cv2_clahe cls_model det_names np_img imgsz k b');
    [|reflexivity].
  rewrite (IH Hin Hb). reflexivity.
Qed.

Lemma predict_success_trace argsort cv2_clahe cls_model det_model det_names
  (np_img : NpImage) conf iou imgsz k maxd log boxes w h out log' :
  det_model np_img conf iou maxd = Some boxes ->
  predict argsort cv2_clahe cls_model det_model det_names true np_img conf iou imgsz k
    maxd log = Some (Success w h out, log') ->
  w = np_w np_img /\ h = np_h np_img /\
  exists ecs,
    process_all argsort cv2_clahe cls_model det_names np_img imgsz k boxes = Some ecs /\
    out = map fst ecs /\ log' = log ++ map snd ecs.
Proof.
  intros Hd Hp. unfold predict in Hp; simpl in Hp. rewrite Hd in Hp.
  destruct boxes as [|b0 rest0] eqn:Eb.
  - injection Hp as <- <- <- <-. split; [reflexivity|]. split; [reflexivity|].
    exists []. simpl. rewrite app_nil_r. auto.
  - rewrite <- Eb in Hp |- *. unfold bind in Hp.
    rewrite detection_loop_process_all in Hp.
    destruct (process_all argsort cv2_clahe cls_model det_names np_img imgsz k boxes)
      as [ecs|]; [|discriminate].
    unfold ret in Hp. injection Hp as <- <- <- <-.
    split; [reflexivity|]. split; [reflexivity|]. exists ecs. auto.
Qed.

(** X8: when [predict] succeeds on the detector's boxes, the classifier
    was called exactly once per box, in the detector's order: the calls
    logged are the enhanced head crops of the boxes, and entry [i]'s
    ["cls"] is the aggregation of the classifier's answer on crop [i]. The
    reported image size is the decoded image's. *)
Theorem predict_classifier_calls argsort cv2_clahe cls_model det_model det_names
  (np_img : NpImage) conf iou imgsz k maxd log boxes w h out log' :
  det_model np_img conf iou maxd = Some boxes ->
  predict argsort cv2_clahe cls_model det_model det_names true np_img conf iou imgsz k
    maxd log = Some (Success w h out, log') ->
  w = np_w np_img /\ h = np_h np_img /\
  exists crops, log' = log ++ crops
    /\ Forall2 (fun b c => enhance_opt cv2_clahe (head_square_crop np_img (b_xyxy b)) = Some c)
         boxes crops
    /\ Forall2 (fun c e => exists r, cls_model c imgsz = Some r /\
                                     e_cls e = aggregate argsort r k) crops out.
Proof.
  intros Hd Hp.
  destruct (predict_success_trace _ _ _ _ _ _ _ _ _ _ _ _ _ _ _ _ _ Hd Hp)
    as [Hw [Hh [ecs [Ha [-> ->]]]]].
  split; [exact Hw|]. split; [exact Hh|].
  exists (map snd ecs). split; [reflexivity|].
  apply (process_Forall2_split _ _ _ det_names). apply process_all_Forall2. exact Ha.
Qed.

Lemma predict_classifier_calls_witness :
  exists w h out log',
    predict stable_argsort None cls_model_ex (det_model_ex boxes_ex) det_names_ex true
      img_ex (1 # 5) (7 # 10) 1024 3 50 [] = Some (Success w h out, log')
    /\ (w = np_w img_ex /\ h = np_h img_ex /\
        exists crops, log' = [] ++ crops
          /\ Forall2 (fun b c => enhance_opt None (head_square_crop img_ex (b_xyxy b)) = Some c)
               boxes_ex crops
          /\ Forall2 (fun c e => exists r, cls_model_ex c 1024 = Some r /\
                                           e_cls e = aggregate stable_argsort r 3) crops out).
Proof.
  do 4 eexists. split; [cbv; reflexivity|].
  eapply (predict_classifier_calls stable_argsort None cls_model_ex
            (det_model_ex boxes_ex) det_names_ex img_ex (1 # 5) (7 # 10) 1024 3 50 []
            boxes_ex); [reflexivity|vm_compute; reflexivity].
Defined.

(** X9: a request never returns a partial result: if, for one of the
    detector's boxes, the enhancement or the classifier call raises, the
    whole of [predict] raises. *)
Theorem predict_aborts_on_raise argsort cv2_clahe cls_model det_model det_names
  (np_img : NpImage) conf iou imgsz k maxd log boxes (b : DetBox) :
  det_model np_img conf iou maxd = Some boxes -> In b boxes ->
  (enhance_opt cv2_clahe (head_square_crop np_img (b_xyxy b)) = None
   \/ exists c, enhance_opt cv2_clahe (head_square_crop np_img (b_xyxy b)) = Some c
                /\ cls_model c imgsz = None) ->
  predict argsort cv2_clahe cls_model det_model det_names true np_img conf iou imgsz k
    maxd log = None.
Proof.
  intros Hd Hin Hraise.
  assert (Hone : process_one argsort cv2_clahe cls_model det_names np_img imgsz k b = None).
  { unfold process_one. destruct Hraise as [He|[c [He Hc]]]; rewrite He; [reflexivity|].
    rewrite Hc. reflexivity. }
  pose proof (process_all_none _ _ _ _ _ _ _ _ _ Hin Hone) as Hnone.
  unfold predict; simpl. rewrite Hd.
  destruct boxes as [|b0 rest0] eqn:Eb; [contradiction|].
  rewrite <- Eb in Hnone |- *. unfold bind.
  rewrite detection_loop_process_all, Hnone. reflexivity.
Qed.

Lemma predict_aborts_on_raise_witness :
  predict stable_argsort (Some (fun _ => None)) cls_model_ex (det_model_ex boxes_ex)
    det_names_ex true img_ex (1 # 5) (7 # 10) 1024 3 50 [] = None.
Proof.
  apply (predict_aborts_on_raise stable_argsort (Some (fun _ => None)) cls_model_ex
           (det_model_ex boxes_ex) det_names_ex img_ex (1 # 5) (7 # 10) 1024 3 50 []
           boxes_ex box_large eq_refl).
  - simpl. auto.
  - left. reflexivity.
Defined.

(** X10: without OpenCV ([cv2] failed to import), the crops handed to
    the classifier by a successful [predict] are exactly the head crops of
    the detector's boxes, in order. *)
Theorem predict_without_cv2_crops argsort cls_model det_model det_names
  (np_img : NpImage) conf iou imgsz k maxd log boxes w h out log' :
  det_model np_img conf iou maxd = Some boxes ->
  predict argsort None cls_model det_model det_names true np_img conf iou imgsz k
    maxd log = Some (Success w h out, log') ->
  log' = log ++ map (fun b => head_square_crop np_img (b_xyxy b)) boxes.
Proof.
  intros Hd Hp.
  destruct (predict_success_trace _ _ _ _ _ _ _ _ _ _ _ _ _ _ _ _ _ Hd Hp)
    as [_ [_ [ecs [Ha [_ ->]]]]].
  f_equal.
  destruct (process_Forall2_split _ _ _ _ _ _ _ _ _
              (process_all_Forall2 _ _ _ _ _ _ _ _ _ Ha)) as [HF _].
  clear Ha Hd Hp. revert HF. generalize (map snd ecs) as crops.
  induction boxes as [|b rest IH]; intros crops HF; inversion HF; subst; [reflexivity|].
  simpl. unfold enhance_opt in *. match goal with H : Some _ = Some _ |- _ =>
    injection H as <- end.
  f_equal. apply IH. assumption.
Qed.

Lemma predict_without_cv2_crops_witness :
  exists w h out log',
    predict stable_argsort None cls_model_ex (det_model_ex boxes_ex) det_names_ex true
      img_ex (1 # 5) (7 # 10) 1024 3 50 [] = Some (Success w h out, log')
    /\ log' = [] ++ map (fun b => head_square_crop img_ex (b_xyxy b)) boxes_ex.
Proof.
  do 4 eexists. split; [cbv; reflexivity|].
  eapply (predict_without_cv2_crops stable_argsort cls_model_ex
            (det_model_ex boxes_ex) det_names_ex img_ex (1 # 5) (7 # 10) 1024 3 50 []
            boxes_ex); [reflexivity|vm_compute; reflexivity].
Defined.

(** X11: on success, no entry's ["topk"] has more than [cls_topk]
    elements; under the contract of [np.argsort], each is in
    non-increasing order of confidence. *)
Theorem predict_topk_bounded argsort cv2_clahe cls_model det_model det_names
  (np_img : NpImage) conf iou imgsz k maxd log boxes w h out log' :
  argsort_spec argsort ->
  det_model np_img conf iou maxd = Some boxes ->
  predict argsort cv2_clahe cls_model det_model det_names true np_img conf iou imgsz k
    maxd log = Some (Success w h out, log') ->
  Forall (fun e => (length (c_topk (e_cls e)) <= k)%nat
                   /\ Sorted (fun a b => te_conf b <= te_conf a)%Q (c_topk (e_cls e))) out.
Proof.
  intros Hspec Hd Hp.
  destruct (predict_success_trace _ _ _ _ _ _ _ _ _ _ _ _ _ _ _ _ _ Hd Hp)
    as [_ [_ [ecs [Ha [-> _]]]]].
  destruct (process_Forall2_split _ _ _ _ _ _ _ _ _
              (process_all_Forall2 _ _ _ _ _ _ _ _ _ Ha)) as [_ HF].
  assert (HE : Forall (fun e => exists r, e_cls e = aggregate argsort r k) (map fst ecs)).
  { clear -HF. induction HF as [|c e cs es [r [_ He]] _ IH]; constructor; eauto. }
  revert HE. apply Forall_impl. intros e [r ->].
  destruct (r_probs r) as [p|] eqn:Hr.
  2:{ unfold aggregate. rewrite Hr. simpl. split; [lia|constructor]. }
  rewrite (aggregate_some argsort r p k Hr). split.
  - rewrite length_map. unfold top_idxs. rewrite length_firstn. lia.
  - apply (Sorted_map_rel (fun i j => nth j p 0%Q <= nth i p 0%Q)%Q).
    + intros i j _ _ H. exact H.
    + apply Sorted_firstn. apply argsort_neg_sorted. exact Hspec.
Qed.

Lemma predict_topk_bounded_witness :
  exists w h out log',
    predict stable_argsort None cls_model_ex (det_model_ex boxes_ex) det_names_ex true
      img_ex (1 # 5) (7 # 10) 1024 3 50 [] = Some (Success w h out, log')
    /\ Forall (fun e => (length (c_topk (e_cls e)) <= 3)%nat
                   /\ Sorted (fun a b => te_conf b <= te_conf a)%Q (c_topk (e_cls e))) out.
Proof.
  do 4 eexists. split; [cbv; reflexivity|].
  eapply (predict_topk_bounded stable_argsort None cls_model_ex
            (det_model_ex boxes_ex) det_names_ex img_ex (1 # 5) (7 # 10) 1024 3 50 []
            boxes_ex); [exact stable_argsort_spec|reflexivity|vm_compute; reflexivity].
Defined.
